(** * web3-bet-bot: the reconciliation and opportunity-detection engine

    A shallow embedding of
      - [calculateArbitrageOpportunity]   (src/engine/ArbitrageEngine.js),
      - [diceCoefficient], [findBestMatch], [hydrateDictionaryByCompositeKey]
                                          (src/utils/dictionaryHydration.js),
      - [runDiscoveryCycle]               (index.js),
    followed by the properties the design document states about them.

    Numbers.  JavaScript numbers are IEEE 754 binary64 values.  The
    calculator is embedded twice, with the same text:
      - [Calculator64] computes on binary64 numbers ([PrimFloat.float]):
        rounding, the infinities, [NaN] and the signed zeros are those of
        the code.  Whatever depends on the value of a product, a quotient
        or a sum is stated there.
      - [Calculator] computes on exact canonical rationals ([Qc]): it is
        the code on finite numbers under exact arithmetic, and agrees with
        the code on the order of the checks, on the shape of the returned
        objects and, short of underflow, on the sign tests.  [Qc] has no
        infinity and no [NaN], and [x / 0] is [0] there.
    The matcher's scores and time gaps are exact rationals as well.

    Strings.  A JavaScript string is modelled as a [string] of 8-bit
    characters, that is, a string all of whose UTF-16 code units are below
    256; [substring], [length] and [===] act on it unit by unit as they do
    on code units. *)

From Stdlib Require Import QArith Qcanon.
From Stdlib Require Qcabs.
From Stdlib Require Floats.
From stdpp Require Import base numbers strings list gmap gmultiset.

Open Scope Qc_scope.

(** Decimal literal [n/d]. *)
Definition dec (n : Z) (d : positive) : Qc := Q2Qc (n # d).

(** [x || 0] on an array slot: [undefined] (a read out of range) and [0]
    are falsy, every other number is kept. *)
Definition orZero (x : option Qc) : Qc :=
  match x with
  | Some v => if bool_decide (v = 0) then 0 else v
  | None => 0
  end.

(** Sum of a list of rationals, left to right from [0], as [margin += ...]
    accumulates it. *)
Definition sumQc (l : list Qc) : Qc := fold_left Qcplus l 0.

(* ===================================================================== *)
(** ** The opportunity calculator (ArbitrageEngine.js) *)
(* ===================================================================== *)

Module Calculator.

Inductive Bookie := azuro | overtime.

Global Instance Bookie_eq_dec : EqDecision Bookie.
Proof. solve_decision. Defined.

(** An entry of [bestOdds].  The first loop pushes it without a [stake];
    the second loop adds the field to the same object. *)
Record Leg := mkLeg {
  outcomeIndex : nat;
  bookie : Bookie;
  effOdd : Qc;
  rawOdd : option Qc;
  stake : option Qc
}.

(** The object the function returns; a field the returned literal does not
    have is [None]. *)
Record OpportunityResult := mkResult {
  isArbitrage : bool;
  margin : option Qc;
  reason : option string;
  matchId : option string;
  profitPercentage : option Qc;
  minNetProfit : option Qc;
  legs : option (list Leg);
  gasCosts : option Qc
}.

(** [{ isArbitrage: false, margin: 0, reason }] *)
Definition shortCircuit (why : string) : OpportunityResult :=
  mkResult false (Some 0) (Some why) None None None None None.

(** [{ isArbitrage: false, margin }] *)
Definition noArbitrage (m : Qc) : OpportunityResult :=
  mkResult false (Some m) None None None None None None.

(** The variables the first loop updates. *)
Record LoopState := mkLoop {
  marginAcc : Qc;
  bestOdds : list Leg;
  usesAzuro : bool;
  usesDexsport : bool
}.

Definition loopInit : LoopState := mkLoop 0 [] false false.

Section Selection.
Variables azuroOddsArray dexsportOddsArray : list Qc.
Variables commissionA commissionB : Qc.

Definition effAzuro (i : nat) : Qc :=
  orZero (azuroOddsArray !! i) * (1 - commissionA).

Definition effDexsport (i : nat) : Qc :=
  orZero (dexsportOddsArray !! i) * (1 - commissionB).

(** One iteration of the first loop: [inl] is an early [return]. *)
Definition selectStep (i : nat) (st : LoopState) : OpportunityResult + LoopState :=
  if bool_decide (effAzuro i = 0) && bool_decide (effDexsport i = 0)
  then inl (shortCircuit "Zero odds on an outcome")
  else
    let '(bestEffOdd, rawOdd, bestBookie, usesA, usesD) :=
      if bool_decide (effDexsport i < effAzuro i)
      then (effAzuro i, azuroOddsArray !! i, azuro, true, usesDexsport st)
      else (effDexsport i, dexsportOddsArray !! i, overtime, usesAzuro st, true) in
    if bool_decide (bestEffOdd ≤ 0)
    then inl (shortCircuit "Zero odds on best outcome")
    else inr (mkLoop (marginAcc st + 1 / bestEffOdd)
                     (bestOdds st ++ [mkLeg i bestBookie bestEffOdd rawOdd None])
                     usesA usesD).

(** [for (let i = 0; i < numOutcomes; i++)], over the indices still to
    visit. *)
Fixpoint selectLoop (idxs : list nat) (st : LoopState) : OpportunityResult + LoopState :=
  match idxs with
  | [] => inr st
  | i :: rest =>
      match selectStep i st with
      | inl r => inl r
      | inr st' => selectLoop rest st'
      end
  end.
End Selection.

(** The second loop: [bestOdds[i].stake = totalInvestment * (1 / effOdd) / margin]. *)
Definition allocate (totalInvestment m : Qc) (l : Leg) : Leg :=
  mkLeg (outcomeIndex l) (bookie l) (effOdd l) (rawOdd l)
        (Some (totalInvestment * (1 / effOdd l) / m)).

Definition calculateArbitrageOpportunity
    (matchId : string)
    (azuroOddsArray dexsportOddsArray : option (list Qc))
    (totalInvestment gasFeeA gasFeeB commissionA commissionB : Qc)
    (isMarketFrozenA isMarketFrozenB : bool) : OpportunityResult :=
  if isMarketFrozenA || isMarketFrozenB then shortCircuit "Market Suspended"
  else
    match azuroOddsArray, dexsportOddsArray with
    | None, _ | _, None => shortCircuit "Odds missing"
    | Some a, Some d =>
        if bool_decide (length a = 0%nat) then shortCircuit "Odds missing"
        else if bool_decide (length a ≠ length d)
        then shortCircuit "Odds array length mismatch"
        else
          let numOutcomes := length a in
          match selectLoop a d commissionA commissionB (seq 0 numOutcomes) loopInit with
          | inl r => r
          | inr st =>
              let m := marginAcc st in
              if bool_decide (1 ≤ m) then noArbitrage m
              else
                let staked := map (allocate totalInvestment m) (bestOdds st) in
                let totalGasCost :=
                  (if usesAzuro st then gasFeeA else 0)
                  + (if usesDexsport st then gasFeeB else 0) in
                let netReturn := totalInvestment / m in
                let trueNetProfit := netReturn - totalInvestment - totalGasCost in
                let isProfitable := bool_decide (0 < trueNetProfit) in
                let pct := trueNetProfit / totalInvestment * dec 100 1 in
                mkResult isProfitable None None (Some matchId) (Some pct)
                         (Some trueNetProfit) (Some staked) (Some totalGasCost)
          end
    end.

(** What the first loop has established after visiting the indices below
    [k]. *)
Record selected (k : nat) (st : LoopState) : Prop := {
  sel_indices : map outcomeIndex (bestOdds st) = seq 0 k;
  sel_margin : marginAcc st = sumQc (map (λ l, 1 / effOdd l) (bestOdds st));
  sel_positive : Forall (λ l, 0 < effOdd l) (bestOdds st)
}.

End Calculator.

(* ===================================================================== *)
(** ** The opportunity calculator on binary64 numbers *)
(* ===================================================================== *)

(** The same function, line by line, with every number an IEEE 754 binary64
    value: [*], [-], [/], [+] round to nearest, [===], [>], [<=], [>=] are
    the IEEE comparisons (all false on [NaN]), and [x || 0] replaces the
    falsy numbers [+0], [-0] and [NaN] by [0]. *)
Module Calculator64.
Import PrimFloat.
#[local] Open Scope float_scope.

(** [x || 0] on an array slot. *)
Definition orZero (x : option float) : float :=
  match x with
  | Some v => if (v =? 0) || is_nan v then 0 else v
  | None => 0
  end.

Record Leg := mkLeg {
  outcomeIndex : nat;
  bookie : Calculator.Bookie;
  effOdd : float;
  rawOdd : option float;
  stake : option float
}.

Record OpportunityResult := mkResult {
  isArbitrage : bool;
  margin : option float;
  reason : option string;
  matchId : option string;
  profitPercentage : option float;
  minNetProfit : option float;
  legs : option (list Leg);
  gasCosts : option float
}.

(** [{ isArbitrage: false, margin: 0, reason }] *)
Definition shortCircuit (why : string) : OpportunityResult :=
  mkResult false (Some 0) (Some why) None None None None None.

(** [{ isArbitrage: false, margin }] *)
Definition noArbitrage (m : float) : OpportunityResult :=
  mkResult false (Some m) None None None None None None.

Record LoopState := mkLoop {
  marginAcc : float;
  bestOdds : list Leg;
  usesAzuro : bool;
  usesDexsport : bool
}.

Definition loopInit : LoopState := mkLoop 0 [] false false.

Section Selection.
Variables azuroOddsArray dexsportOddsArray : list float.
Variables commissionA commissionB : float.

Definition effAzuro (i : nat) : float :=
  orZero (azuroOddsArray !! i) * (1 - commissionA).

Definition effDexsport (i : nat) : float :=
  orZero (dexsportOddsArray !! i) * (1 - commissionB).

(** One iteration of the first loop: [inl] is an early [return]. *)
Definition selectStep (i : nat) (st : LoopState) : OpportunityResult + LoopState :=
  if (effAzuro i =? 0) && (effDexsport i =? 0)
  then inl (shortCircuit "Zero odds on an outcome")
  else
    let '(bestEffOdd, rawOdd, bestBookie, usesA, usesD) :=
      if effDexsport i <? effAzuro i
      then (effAzuro i, azuroOddsArray !! i, Calculator.azuro, true, usesDexsport st)
      else (effDexsport i, dexsportOddsArray !! i, Calculator.overtime, usesAzuro st, true) in
    if bestEffOdd <=? 0
    then inl (shortCircuit "Zero odds on best outcome")
    else inr (mkLoop (marginAcc st + 1 / bestEffOdd)
                     (bestOdds st ++ [mkLeg i bestBookie bestEffOdd rawOdd None])
                     usesA usesD).

Fixpoint selectLoop (idxs : list nat) (st : LoopState) : OpportunityResult + LoopState :=
  match idxs with
  | [] => inr st
  | i :: rest =>
      match selectStep i st with
      | inl r => inl r
      | inr st' => selectLoop rest st'
      end
  end.
End Selection.

(** The second loop: [bestOdds[i].stake = totalInvestment * (1 / effOdd) / margin]. *)
Definition allocate (totalInvestment m : float) (l : Leg) : Leg :=
  mkLeg (outcomeIndex l) (bookie l) (effOdd l) (rawOdd l)
        (Some (totalInvestment * (1 / effOdd l) / m)).

Definition calculateArbitrageOpportunity
    (matchId : string)
    (azuroOddsArray dexsportOddsArray : option (list float))
    (totalInvestment gasFeeA gasFeeB commissionA commissionB : float)
    (isMarketFrozenA isMarketFrozenB : bool) : OpportunityResult :=
  if isMarketFrozenA || isMarketFrozenB then shortCircuit "Market Suspended"
  else
    match azuroOddsArray, dexsportOddsArray with
    | None, _ | _, None => shortCircuit "Odds missing"
    | Some a, Some d =>
        if bool_decide (length a = 0%nat) then shortCircuit "Odds missing"
        else if bool_decide (length a ≠ length d)
        then shortCircuit "Odds array length mismatch"
        else
          let numOutcomes := length a in
          match selectLoop a d commissionA commissionB (seq 0 numOutcomes) loopInit with
          | inl r => r
          | inr st =>
              let m := marginAcc st in
              if 1 <=? m then noArbitrage m
              else
                let staked := map (allocate totalInvestment m) (bestOdds st) in
                let gas0 := 0 in
                let gas1 := if usesAzuro st then gas0 + gasFeeA else gas0 in
                let totalGasCost := if usesDexsport st then gas1 + gasFeeB else gas1 in
                let netReturn := totalInvestment / m in
                let trueNetProfit := netReturn - totalInvestment - totalGasCost in
                let isProfitable := 0 <? trueNetProfit in
                let pct := trueNetProfit / totalInvestment * 100 in
                mkResult isProfitable None None (Some matchId) (Some pct)
                         (Some trueNetProfit) (Some staked) (Some totalGasCost)
          end
    end.

(** The best effective odd of outcome [i], as the branch on
    [effAzuro > effDexsport] selects it. *)
Definition bestEffOdd (a d : list float) (cA cB : float) (i : nat) : float :=
  if effDexsport d cB i <? effAzuro a cA i then effAzuro a cA i else effDexsport d cB i.

(** Outcome [i] passes both checks of the first loop: the two effective
    odds are not both zero and the best one is not [<= 0]. *)
Definition passes (a d : list float) (cA cB : float) (i : nat) : bool :=
  negb ((effAzuro a cA i =? 0) && (effDexsport d cB i =? 0))
  && negb (bestEffOdd a d cA cB i <=? 0).

(** A recorded leg belongs to an outcome that passed both checks, sits on
    the venue the comparison chose and carries that venue's effective and
    raw odds. *)
Definition routed (a d : list float) (cA cB : float) (l : Leg) : Prop :=
  let i := outcomeIndex l in
  passes a d cA cB i = true
  ∧ ((bookie l = Calculator.azuro ∧ (effDexsport d cB i <? effAzuro a cA i) = true
        ∧ effOdd l = effAzuro a cA i ∧ rawOdd l = a !! i)
     ∨ (bookie l = Calculator.overtime ∧ (effDexsport d cB i <? effAzuro a cA i) = false
        ∧ effOdd l = effDexsport d cB i ∧ rawOdd l = d !! i)).

(** The sum [margin] holds for a list of legs, accumulated from [0] in
    list order as [margin += 1 / bestEffOdd] does. *)
Definition marginOf (ls : list Leg) : float :=
  fold_left (λ acc l, acc + 1 / effOdd l) ls 0.

(** The sum of the stakes, in list order; a leg without a stake counts as
    [NaN] ([undefined] in an addition). *)
Definition sumStakes (ls : list Leg) : float :=
  fold_left (λ acc l, acc + default nan (stake l)) ls 0.

(** [stake * effOdd]: what a leg pays when its outcome occurs. *)
Definition payout (l : Leg) : float := default nan (stake l) * effOdd l.

(** What the first loop has established after visiting the indices below
    [k]. *)
Record recorded (a d : list float) (cA cB : float) (k : nat) (st : LoopState) : Prop := {
  rec_indices : map outcomeIndex (bestOdds st) = seq 0 k;
  rec_margin : marginAcc st = marginOf (bestOdds st);
  rec_routed : Forall (routed a d cA cB) (bestOdds st)
}.

End Calculator64.

(* ===================================================================== *)
(** ** The fuzzy matcher (dictionaryHydration.js) *)
(* ===================================================================== *)

Module Matcher.

(** *** Dice coefficient *)

(** The bigrams [s.substring(i, i + 2)] for [i = 0 .. s.length - 2]. *)
Definition bigramsOf (s : string) : list string :=
  map (λ i, String.substring i 2 s) (seq 0 (String.length s - 1)).

(** [bigrams1.get(bigram) || 0] *)
Definition getCount (m : gmap string nat) (bigram : string) : nat :=
  default 0%nat (m !! bigram).

(** First loop: count the bigrams of [s1] in a [Map]. *)
Definition countBigram (m : gmap string nat) (bigram : string) : gmap string nat :=
  <[bigram := (getCount m bigram + 1)%nat]> m.

Definition buildBigrams (s1 : string) : gmap string nat :=
  fold_left countBigram (bigramsOf s1) ∅.

(** Second loop: consume one occurrence per matching bigram of [s2]. *)
Definition consumeBigram (st : gmap string nat * nat) (bigram : string)
    : gmap string nat * nat :=
  let count := getCount st.1 bigram in
  if bool_decide (0 < count)%nat
  then (<[bigram := (count - 1)%nat]> st.1, S st.2)
  else st.

Definition intersectionCount (s1 s2 : string) : nat :=
  (fold_left consumeBigram (bigramsOf s2) (buildBigrams s1, 0%nat)).2.

Definition ofNat (n : nat) : Qc := Q2Qc (inject_Z (Z.of_nat n)).

Definition diceCoefficient (s1 s2 : string) : Qc :=
  if bool_decide (s1 = "") || bool_decide (s2 = "") then 0
  else if bool_decide (s1 = s2) then 1
  else if bool_decide (String.length s1 < 2)%nat || bool_decide (String.length s2 < 2)%nat
  then 0
  else dec 2 1 * ofNat (intersectionCount s1 s2)
       / ofNat ((String.length s1 - 1) + (String.length s2 - 1)).

(** *** Best match among the candidate names *)

Record BestMatch := mkBest {
  rating : Qc;
  bestMatchIndex : nat;
  target : string
}.

(** The loop of [findBestMatch] from index [i] on. *)
Fixpoint findBestLoop (mainString : string) (targetStrings : list string)
    (i : nat) (best : BestMatch) : BestMatch :=
  match targetStrings with
  | [] => best
  | t :: rest =>
      let r := diceCoefficient mainString t in
      findBestLoop mainString rest (S i)
        (if bool_decide (rating best < r) then mkBest r i t else best)
  end.

Definition findBestMatch (mainString : string) (targetStrings : list string) : BestMatch :=
  findBestLoop mainString targetStrings 0 (mkBest 0 0 "").

(** *** Normalisation *)

Definition charCode (c : Ascii.ascii) : nat := Ascii.nat_of_ascii c.

(** [toLowerCase] on one code unit below 256: the capitals [A-Z] and the
    Latin-1 capitals U+00C0 .. U+00DE, U+00D7 (the multiplication sign)
    excepted, move up by 32; every other unit is left as it is. *)
Definition toLowerChar (c : Ascii.ascii) : Ascii.ascii :=
  if ((65 <=? charCode c)%nat && (charCode c <=? 90)%nat)
     || ((192 <=? charCode c)%nat && (charCode c <=? 222)%nat
         && negb (charCode c =? 215)%nat)
  then Ascii.ascii_of_nat (charCode c + 32) else c.

(** The class [\s] (and what [trim] strips) among 8-bit characters. *)
Definition isSpace (c : Ascii.ascii) : bool :=
  bool_decide (charCode c ∈ [9; 10; 11; 12; 13; 32; 160]%nat).

(** The class [[a-z0-9\s]]. *)
Definition isKept (c : Ascii.ascii) : bool :=
  ((97 <=? charCode c)%nat && (charCode c <=? 122)%nat)
  || ((48 <=? charCode c)%nat && (charCode c <=? 57)%nat)
  || isSpace c.

Fixpoint dropSpaces (l : list Ascii.ascii) : list Ascii.ascii :=
  match l with
  | c :: rest => if isSpace c then dropSpaces rest else l
  | [] => []
  end.

Definition trim (l : list Ascii.ascii) : list Ascii.ascii :=
  rev (dropSpaces (rev (dropSpaces l))).

(** [String(s).toLowerCase().replace(/[^a-z0-9\s]/g, '').trim()] *)
Definition cleanStr (s : string) : string :=
  String.string_of_list_ascii
    (trim (filter (λ c, isKept c = true) (map toLowerChar (String.list_ascii_of_string s)))).

(** *** Events, buckets and pairs *)

Record MarketEvent := mkEvent {
  id : string;
  name : string;
  sport : option string;
  startTime : Qc;
  odds : option (list Qc)
}.

(** [(e.sport || "unknown").toLowerCase()] *)
Definition sportKey (e : MarketEvent) : string :=
  let s := match sport e with
           | Some s => if bool_decide (s = "") then "unknown" else s
           | None => "unknown"
           end in
  String.string_of_list_ascii (map toLowerChar (String.list_ascii_of_string s)).

(** [targetBySport] is a plain object: the keys it inherits from
    [Object.prototype] are truthy without being arrays, so [push] and
    [map] on them raise a [TypeError].  Of the inherited names only these
    two are fixed by lower-casing. *)
Definition inheritedKey (k : string) : bool :=
  bool_decide (k ∈ ["constructor"; "__proto__"]).

(** The target events live in their bucket; the bucket key and the
    position in the bucket identify the object. *)
Definition Buckets := gmap string (list MarketEvent).

Record TargetRef := mkRef { refSport : string; refIndex : nat }.

Record MatchedPair := mkPair {
  eventA : MarketEvent;
  eventB : TargetRef;
  confidence : Qc
}.

Definition deref (σ : gmap string (list MarketEvent)) (r : TargetRef) : option MarketEvent :=
  σ !! refSport r ≫= λ bucket, bucket !! refIndex r.

(** PHASE 1: group the target events by sport; [None] is a thrown
    [TypeError]. *)
Fixpoint groupBySport (targetEvents : list MarketEvent)
    (σ : gmap string (list MarketEvent)) : option (gmap string (list MarketEvent)) :=
  match targetEvents with
  | [] => Some σ
  | t :: rest =>
      let sport := sportKey t in
      if inheritedKey sport then None
      else groupBySport rest (<[sport := default [] (σ !! sport) ++ [t]]> σ)
  end.

Definition setName (n : string) (e : MarketEvent) : MarketEvent :=
  mkEvent (id e) n (sport e) (startTime e) (odds e).

(** [targetNamesMap]: the cleaned candidate names longer than one
    character. *)
Definition targetNames (matchingTargetEvents : list MarketEvent) : list string :=
  filter (λ n, (1 < String.length n)%nat)
         (map (λ t, cleanStr (name t)) matchingTargetEvents).

(** The body of the [try] block for one source event and its bucket:
    the updated bucket and the pair to push, if the match is accepted. *)
Definition tryMatch (sport : string) (azuroEvent : MarketEvent)
    (matchingTargetEvents : list MarketEvent)
    : option (list MarketEvent * MatchedPair) :=
  let result := findBestMatch (cleanStr (name azuroEvent))
                              (targetNames matchingTargetEvents) in
  if bool_decide (dec 45 100 < rating result) then
    match matchingTargetEvents !! bestMatchIndex result with
    | Some winningTargetEvent =>
        let timeDiffHours :=
          Qcabs.Qcabs (startTime azuroEvent - startTime winningTargetEvent) / dec 3600 1 in
        if bool_decide (timeDiffHours ≤ dec 36 1) then
          Some (<[bestMatchIndex result := setName (name azuroEvent) winningTargetEvent]>
                  matchingTargetEvents,
                mkPair azuroEvent (mkRef sport (bestMatchIndex result)) (rating result))
        else None
    | None => None
    end
  else None.

(** One iteration of PHASE 2; the outer [None] is a thrown [TypeError]. *)
Definition hydrateStep (azuroEvent : MarketEvent)
    (st : gmap string (list MarketEvent) * list MatchedPair)
    : option (gmap string (list MarketEvent) * list MatchedPair) :=
  let sport := sportKey azuroEvent in
  let azuroCleanName := cleanStr (name azuroEvent) in
  if inheritedKey sport then
    if bool_decide (String.length azuroCleanName < 2)%nat then Some st else None
  else
    match st.1 !! sport with
    | None => Some st
    | Some matchingTargetEvents =>
        if bool_decide (length matchingTargetEvents = 0%nat) then Some st
        else if bool_decide (String.length azuroCleanName < 2)%nat then Some st
        else if bool_decide (length (targetNames matchingTargetEvents) = 0%nat) then Some st
        else
          match tryMatch sport azuroEvent matchingTargetEvents with
          | Some (bucket', matched) => Some (<[sport := bucket']> st.1, st.2 ++ [matched])
          | None => Some st
          end
    end.

Fixpoint hydrateLoop (azuroEvents : list MarketEvent)
    (st : gmap string (list MarketEvent) * list MatchedPair)
    : option (gmap string (list MarketEvent) * list MatchedPair) :=
  match azuroEvents with
  | [] => Some st
  | a :: rest =>
      match hydrateStep a st with
      | Some st' => hydrateLoop rest st'
      | None => None
      end
  end.

(** The matched pairs, with the target objects as the loop left them. *)
Definition hydrateDictionaryByCompositeKey (azuroEvents targetEvents : list MarketEvent)
    : option (gmap string (list MarketEvent) * list MatchedPair) :=
  groupBySport targetEvents ∅ ≫= λ σ, hydrateLoop azuroEvents (σ, []).

(** What the caller sees of a pair: [pair.eventA] and the object
    [pair.eventB] as it is when the function returns. *)
Definition resolvePairs (r : gmap string (list MarketEvent) * list MatchedPair)
    : list (MarketEvent * MarketEvent) :=
  omap (λ p, (λ b, (eventA p, b)) <$> deref r.1 (eventB p)) r.2.

End Matcher.

(* ===================================================================== *)
(** ** The cycle coordinator (index.js) *)
(* ===================================================================== *)

Module Coordinator.
Import Calculator Matcher.

(** [runDiscoveryCycle] is an [async] function.  While it is suspended at
    an [await] the only code of this module that can run is another
    request, which returns at the guard because the flag is set; so a
    cycle is modelled as one transformer of the module variables, with the
    answers of its collaborators (resolved or rejected) as parameters and
    the work it hands out recorded in order. *)

(** The module-level variables. *)
Record CoordState := mkState {
  isDiscoveryRunning : bool;
  previousAzuroIds : gset string;
  previousOvertimeIds : gset string;
  placedBets : gset string
}.

Definition setRunning (b : bool) (st : CoordState) : CoordState :=
  mkState b (previousAzuroIds st) (previousOvertimeIds st) (placedBets st).

Definition setPrevious (a o : gset string) (st : CoordState) : CoordState :=
  mkState (isDiscoveryRunning st) a o (placedBets st).

(** DedupGuard: [placedBets.has(key)] and [placedBets.add(key)]. *)
Definition seen (key : string) (st : CoordState) : bool :=
  bool_decide (key ∈ placedBets st).

Definition mark (key : string) (st : CoordState) : CoordState :=
  mkState (isDiscoveryRunning st) (previousAzuroIds st) (previousOvertimeIds st)
          ({[key]} ∪ placedBets st).

(** [`${subAz.id}_${subOv.id}`] *)
Definition betKey (azId ovId : string) : string := azId +:+ "_" +:+ ovId.

(** [{ isFrozen, odds }] as the live-quote collaborators return it. *)
Record LiveOdds := mkLive {
  isFrozen : bool;
  liveOdds : option (list Qc)
}.

(** The work a cycle hands to its collaborators, in order. *)
Inductive Effect :=
| EFetch
| EMatch
| EGas
| ELiveAzuro (azId : string)
| ELiveOvertime (ovId : string)
| ECalculate (azId ovId : string)
| EExecute (azId ovId : string) (r : OpportunityResult).

(** The answers of the collaborators during one cycle; [None] is a
    rejected promise (or a value the caller cannot read). The per-pair
    answers are indexed by the position of the pair in [matchedPairs]. *)
Record Collaborators := mkEnv {
  fetchAzuro : option (list MarketEvent);
  fetchOvertime : option (list MarketEvent);
  gasPolygon : option Qc;
  gasArbitrum : option Qc;
  liveAzuro : nat → string → option LiveOdds;
  liveOvertime : nat → string → option LiveOdds;
  evaluateAndExecute : nat → OpportunityResult → option bool
}.

Record Config := mkConfig {
  POLYGON_WS_URL : bool;
  ARBITRUM_RPC_URL : bool;
  TOTAL_INVESTMENT : Qc
}.

Definition AZURO_COMMISSION : Qc := dec 5 100.
Definition OVERTIME_COMMISSION : Qc := dec 3 100.

Inductive Completion := Normal | Thrown.

(** The state a cycle threads: the module variables and the work done. *)
Definition Run : Type := CoordState * list Effect.

Definition emit (e : Effect) (r : Run) : Run := (r.1, r.2 ++ [e]).

(** [if (live.odds.length === 0) live.isFrozen = true]; reading [length]
    of a missing array throws. *)
Definition freezeIfEmpty (l : LiveOdds) : option LiveOdds :=
  (λ o, if bool_decide (length o = 0%nat) then mkLive true (liveOdds l) else l)
    <$> liveOdds l.

Definition withMatchId (i : string) (r : OpportunityResult) : OpportunityResult :=
  mkResult (isArbitrage r) (margin r) (reason r) (Some i) (profitPercentage r)
           (minNetProfit r) (legs r) (gasCosts r).

Section Cycle.
Variable cfg : Config.
Variable env : Collaborators.

(** The live refinement of the two venues for the pair at position [k]. *)
Definition refine (k : nat) (subAz subOv : MarketEvent) (r : Run)
    : option (LiveOdds * LiveOdds) * Run :=
  let '(la, r1) :=
    if POLYGON_WS_URL cfg
    then (liveAzuro env k (id subAz), emit (ELiveAzuro (id subAz)) r)
    else (Some (mkLive false (odds subAz)), r) in
  match la with
  | None => (None, r1)
  | Some la =>
      let '(lo, r2) :=
        if ARBITRUM_RPC_URL cfg
        then (liveOvertime env k (id subOv), emit (ELiveOvertime (id subOv)) r1)
        else (Some (mkLive false (odds subOv)), r1) in
      match lo with
      | None => (None, r2)
      | Some lo =>
          match freezeIfEmpty la, freezeIfEmpty lo with
          | Some la', Some lo' => (Some (la', lo'), r2)
          | _, _ => (None, r2)
          end
      end
  end.

(** The body of [for (const pair of matchedPairs)]. *)
Definition processPair (avgPolygonGas avgArbitrumGas : Qc) (k : nat)
    (pair : MarketEvent * MarketEvent) (r : Run) : Completion * Run :=
  let subAz := pair.1 in
  let subOv := pair.2 in
  let key := betKey (id subAz) (id subOv) in
  if seen key r.1 then (Normal, r)
  else
    match refine k subAz subOv r with
    | (None, r1) => (Thrown, r1)
    | (Some (la, lo), r1) =>
        let result :=
          calculateArbitrageOpportunity (name subAz) (liveOdds la) (liveOdds lo)
            (TOTAL_INVESTMENT cfg) avgPolygonGas avgArbitrumGas
            AZURO_COMMISSION OVERTIME_COMMISSION (isFrozen la) (isFrozen lo) in
        let r2 := emit (ECalculate (id subAz) (id subOv)) r1 in
        if isArbitrage result then
          let result' := withMatchId (id subAz) result in
          let r3 := emit (EExecute (id subAz) (id subOv) result') r2 in
          match evaluateAndExecute env k result' with
          | None => (Thrown, r3)
          | Some _ => (Normal, (mark key r3.1, r3.2))
          end
        else (Normal, r2)
    end.

Fixpoint processPairs (avgPolygonGas avgArbitrumGas : Qc) (k : nat)
    (pairs : list (MarketEvent * MarketEvent)) (r : Run) : Completion * Run :=
  match pairs with
  | [] => (Normal, r)
  | p :: rest =>
      match processPair avgPolygonGas avgArbitrumGas k p r with
      | (Thrown, r') => (Thrown, r')
      | (Normal, r') => processPairs avgPolygonGas avgArbitrumGas (S k) rest r'
      end
  end.

(** The identifier diff of PHASE 1: the snapshots are replaced unless
    both identifier sets are those of the last cycle and some event was
    fetched. *)
Definition snapshot (azuroData overtimeData : list MarketEvent) (st : CoordState)
    : CoordState :=
  let currentAzuroIds : gset string := list_to_set (map id azuroData) in
  let currentOvertimeIds : gset string := list_to_set (map id overtimeData) in
  let isAzuroIdentical :=
    bool_decide (currentAzuroIds ⊆ previousAzuroIds st)
    && bool_decide (size currentAzuroIds = size (previousAzuroIds st)) in
  let isOvertimeIdentical :=
    bool_decide (currentOvertimeIds ⊆ previousOvertimeIds st)
    && bool_decide (size currentOvertimeIds = size (previousOvertimeIds st)) in
  if isAzuroIdentical && isOvertimeIdentical
     && (bool_decide (0 < length azuroData)%nat || bool_decide (0 < length overtimeData)%nat)
  then st
  else setPrevious currentAzuroIds currentOvertimeIds st.

(** The [try] block. *)
Definition tryBody (r : Run) : Completion * Run :=
  let r1 := emit EFetch r in
  match fetchAzuro env, fetchOvertime env with
  | Some azuroData, Some overtimeData =>
      let r2 : Run := (snapshot azuroData overtimeData r1.1, r1.2) in
      let r3 := emit EMatch r2 in
      match hydrateDictionaryByCompositeKey azuroData overtimeData with
      | None => (Thrown, r3)
      | Some hydrated =>
          let matchedPairs := resolvePairs hydrated in
          if bool_decide (0 < length matchedPairs)%nat then
            let r4 := emit EGas r3 in
            match gasPolygon env, gasArbitrum env with
            | Some avgPolygonGas, Some g =>
                let avgArbitrumGas := if bool_decide (g = 0) then dec 10 100 else g in
                processPairs avgPolygonGas avgArbitrumGas 0 matchedPairs r4
            | _, _ => (Thrown, r4)
            end
          else (Normal, r3)
      end
  | _, _ => (Thrown, r1)
  end.

(** [runDiscoveryCycle]: the guard, the [try] block, [catch] (which only
    logs) and [finally]. *)
Definition runDiscoveryCycle (st : CoordState) : CoordState * list Effect :=
  if isDiscoveryRunning st then (st, [])
  else
    let '(_, (st', work)) := tryBody (setRunning true st, []) in
    (setRunning false st', work).
End Cycle.

(** Successive cycle requests, each with the answers its collaborators
    give. *)
Fixpoint runCycles (cfg : Config) (envs : list Collaborators) (st : CoordState)
    : CoordState * list Effect :=
  match envs with
  | [] => (st, [])
  | env :: rest =>
      let '(st1, w1) := runDiscoveryCycle cfg env st in
      let '(st2, w2) := runCycles cfg rest st1 in
      (st2, w1 ++ w2)
  end.

(** How a stretch of a cycle may change the coordinator: marks are only
    added, the running flag is untouched, work is only appended, and a pair
    is handed to execution only if its key was not marked before. *)
Record extends (r r' : Run) : Prop := {
  ext_marks : placedBets r.1 ⊆ placedBets r'.1;
  ext_flag : isDiscoveryRunning r'.1 = isDiscoveryRunning r.1;
  ext_work : ∃ new, r'.2 = r.2 ++ new
               ∧ ∀ a o res, EExecute a o res ∈ new → betKey a o ∉ placedBets r.1
}.

End Coordinator.

(* ===================================================================== *)
(** * Properties *)
(* ===================================================================== *)

Section CalculatorFacts.
Import Calculator.

Lemma sumQc_from (l : list Qc) (x : Qc) : fold_left Qcplus l x = x + sumQc l.
Proof.
  unfold sumQc. revert x. induction l as [|y l IH]; intros x; simpl.
  - ring.
  - rewrite (IH (x + y)), (IH (0 + y)). ring.
Qed.

Lemma sumQc_cons (x : Qc) (l : list Qc) : sumQc (x :: l) = x + sumQc l.
Proof. unfold sumQc at 1. simpl. rewrite sumQc_from. ring. Qed.

Lemma sumQc_snoc (l : list Qc) (x : Qc) : sumQc (l ++ [x]) = sumQc l + x.
Proof. unfold sumQc. by rewrite fold_left_app. Qed.

Lemma sumQc_scale {A} (f : A → Qc) (c m : Qc) (l : list A) :
  sumQc (map (λ a, c * f a / m) l) = c * sumQc (map f l) / m.
Proof.
  induction l as [|a l IH]; simpl.
  - unfold sumQc, Qcdiv. simpl. ring.
  - rewrite !sumQc_cons, IH. unfold Qcdiv. ring.
Qed.

Lemma sumQc_pos (l : list Qc) : l ≠ [] → Forall (λ x, 0 < x) l → 0 < sumQc l.
Proof.
  induction l as [|x l IH]; [done|]. intros _ H.
  inversion_clear H as [|?? Hx Hl]. rewrite sumQc_cons.
  destruct l as [|y l].
  - unfold sumQc. simpl. by rewrite Qcplus_0_r.
  - apply Qcplus_pos_pos; [done|]. by apply IH.
Qed.

Lemma selected_init : selected 0 loopInit.
Proof. by split. Qed.

(** The three ways an iteration can end. *)
Lemma selectStep_cases a d cA cB i st :
  (effAzuro a cA i = 0 ∧ effDexsport d cB i = 0
     ∧ selectStep a d cA cB i st = inl (shortCircuit "Zero odds on an outcome"))
  ∨ (¬ (effAzuro a cA i = 0 ∧ effDexsport d cB i = 0)
     ∧ effAzuro a cA i ≤ 0 ∧ effDexsport d cB i ≤ 0
     ∧ selectStep a d cA cB i st = inl (shortCircuit "Zero odds on best outcome"))
  ∨ (effDexsport d cB i < effAzuro a cA i ∧ 0 < effAzuro a cA i
     ∧ selectStep a d cA cB i st =
         inr (mkLoop (marginAcc st + 1 / effAzuro a cA i)
                (bestOdds st ++ [mkLeg i azuro (effAzuro a cA i) (a !! i) None])
                true (usesDexsport st)))
  ∨ (effAzuro a cA i ≤ effDexsport d cB i ∧ 0 < effDexsport d cB i
     ∧ selectStep a d cA cB i st =
         inr (mkLoop (marginAcc st + 1 / effDexsport d cB i)
                (bestOdds st ++ [mkLeg i overtime (effDexsport d cB i) (d !! i) None])
                (usesAzuro st) true)).
Proof.
  unfold selectStep.
  destruct (decide (effAzuro a cA i = 0)) as [Ha|Ha];
    destruct (decide (effDexsport d cB i = 0)) as [Hd|Hd];
    rewrite ?(bool_decide_eq_true_2 _ Ha), ?(bool_decide_eq_false_2 _ Ha),
            ?(bool_decide_eq_true_2 _ Hd), ?(bool_decide_eq_false_2 _ Hd); simpl;
    [left; done| | |];
    (destruct (decide (effDexsport d cB i < effAzuro a cA i)) as [Hlt|Hge];
     [ rewrite (bool_decide_eq_true_2 _ Hlt)
     | rewrite (bool_decide_eq_false_2 _ Hge); apply Qcnot_lt_le in Hge ]);
    match goal with
    | |- context [bool_decide (?x ≤ 0)] =>
        destruct (decide (x ≤ 0)) as [Hle|Hpos];
        [ rewrite (bool_decide_eq_true_2 _ Hle)
        | rewrite (bool_decide_eq_false_2 _ Hpos); apply Qcnot_le_lt in Hpos ]
    end;
    try (right; right; left; done);
    try (right; right; right; done);
    right; left; (split; [tauto|]); (split; [|split; [|done]]);
    first [ done
          | apply Qclt_le_weak; by eapply Qclt_le_trans
          | by eapply Qcle_trans ].
Qed.

Lemma selectStep_selected a d cA cB i st st' :
  selectStep a d cA cB i st = inr st' → selected i st → selected (S i) st'.
Proof.
  intros Hstep [Hi Hm Hp].
  destruct (selectStep_cases a d cA cB i st)
    as [(_ & _ & E)|[(_ & _ & _ & E)|[(_ & Hpos & E)|(_ & Hpos & E)]]];
    rewrite E in Hstep; simplify_eq; split; cbn [bestOdds marginAcc].
  all: try (by rewrite map_app, seq_S, Hi).
  all: try (by rewrite map_app; cbn [map]; rewrite sumQc_snoc, Hm).
  all: apply Forall_app; split; try done; by apply Forall_singleton.
Qed.

Lemma selectLoop_selected a d cA cB n k st st' :
  selectLoop a d cA cB (seq k n) st = inr st' → selected k st → selected (k + n) st'.
Proof.
  revert k st. induction n as [|n IH]; intros k st; simpl.
  - intros [= <-]. by rewrite Nat.add_0_r.
  - destruct (selectStep a d cA cB k st) as [r|st1] eqn:E; [done|].
    intros Hloop Hsel. replace (k + S n)%nat with (S k + n)%nat by lia.
    eapply IH; [done|]. by eapply selectStep_selected.
Qed.

(** The function reaches the stake allocation exactly when it returns
    [legs]: the inputs and the loop state behind such a result. *)
Lemma legs_inversion mid oa od T gA gB cA cB fA fB ls :
  legs (calculateArbitrageOpportunity mid oa od T gA gB cA cB fA fB) = Some ls →
  ∃ a d st,
    oa = Some a ∧ od = Some d ∧ fA = false ∧ fB = false
    ∧ a ≠ [] ∧ length a = length d
    ∧ selectLoop a d cA cB (seq 0 (length a)) loopInit = inr st
    ∧ marginAcc st < 1
    ∧ ls = map (allocate T (marginAcc st)) (bestOdds st).
Proof.
  unfold calculateArbitrageOpportunity.
  destruct fA, fB; simpl; try done.
  destruct oa as [a|], od as [d|]; simpl; try done.
  case_bool_decide as Hlen; [done|].
  case_bool_decide as Hneq; [done|].
  destruct (selectLoop a d cA cB (seq 0 (length a)) loopInit) as [r|st] eqn:Hloop.
  - intros Hl. exfalso. revert Hloop Hl. generalize loopInit, (seq 0 (length a)).
    intros st0 idxs. revert st0. induction idxs as [|i idxs IH]; intros st0; simpl; [done|].
    destruct (selectStep_cases a d cA cB i st0)
      as [(_ & _ & E)|[(_ & _ & _ & E)|[(_ & _ & E)|(_ & _ & E)]]]; rewrite E;
      try (intros [= <-]; done); apply IH.
  - case_bool_decide as Hm; [done|]. simpl. intros [= <-].
    exists a, d, st. repeat split; try done.
    + by intros ->.
    + by apply Qcnot_le_lt.
Qed.

End CalculatorFacts.

Section CalculatorClaims.
Import Calculator.

(** The allocation formula under exact arithmetic on finite numbers:
    whenever the function returns [legs], the legs carry the outcome indices
    [0, 1, ..., n-1] in order, each exactly once; the margin is below one;
    every leg has a stake, the stakes sum to [totalInvestment], and
    [stake * effOdd] is the same amount [totalInvestment / margin] on every
    leg. *)
Lemma stake_allocation_equalises_payout mid oa od T gA gB cA cB fA fB ls :
  legs (calculateArbitrageOpportunity mid oa od T gA gB cA cB fA fB) = Some ls →
  let m := sumQc (map (λ l, 1 / effOdd l) ls) in
  ∃ a stakes,
    oa = Some a
    ∧ map outcomeIndex ls = seq 0 (length a)
    ∧ m < 1
    ∧ map stake ls = map Some stakes
    ∧ sumQc stakes = T
    ∧ Forall (λ l, ∃ s, stake l = Some s ∧ s * effOdd l = T / m) ls.
Proof.
  intros Hlegs.
  destruct (legs_inversion _ _ _ _ _ _ _ _ _ _ _ Hlegs)
    as (a & d & st & -> & -> & -> & -> & Hne & Hlen & Hloop & Hm & ->).
  pose proof (selectLoop_selected _ _ _ _ _ 0 _ _ Hloop selected_init) as [Hi Hmar Hpos].
  simpl in Hi.
  set (bo := bestOdds st) in *. set (m0 := marginAcc st) in *.
  assert (Heff : map (λ l, 1 / effOdd l) (map (allocate T m0) bo)
                 = map (λ l, 1 / effOdd l) bo).
  { rewrite map_map. by apply map_ext. }
  assert (Hbo : bo ≠ []).
  { intros E. rewrite E in Hi. simpl in Hi. destruct a; [done|]. discriminate Hi. }
  assert (Hm0 : 0 < m0).
  { rewrite Hmar. apply sumQc_pos.
    - destruct bo; [done|]. discriminate.
    - apply Forall_map. eapply Forall_impl; [|exact Hpos].
      intros l Hl. simpl. unfold Qcdiv. rewrite Qcmult_1_l. by apply Qcinv_pos. }
  assert (Hm0' : m0 ≠ 0).
  { intros E. rewrite E in Hm0. by apply Qclt_not_eq in Hm0. }
  intros m. subst m. rewrite Heff, <- Hmar.
  exists a, (map (λ l, T * (1 / effOdd l) / m0) bo).
  split; [done|]. split; [by rewrite map_map|]. split; [done|].
  split; [by rewrite !map_map|]. split.
  - rewrite (sumQc_scale (λ l, 1 / effOdd l) T m0 bo), <- Hmar. by field.
  - apply Forall_map. eapply Forall_impl; [|exact Hpos].
    intros l Hl. simpl. eexists; split; [done|].
    assert (He : effOdd l ≠ 0).
    { intros E. simpl in Hl. rewrite E in Hl. by apply Qclt_not_eq in Hl. }
    field. by split.
Qed.

Lemma stake_allocation_equalises_payout_witness :
  let r := calculateArbitrageOpportunity "match" (Some [dec 21 10; dec 2 1])
             (Some [dec 18 10; dec 23 10]) (dec 100 1) 0 0 0 0 false false in
  let ls := default [] (legs r) in
  let m := sumQc (map (λ l, 1 / effOdd l) ls) in
  ∃ a stakes,
    Some [dec 21 10; dec 2 1] = Some a
    ∧ map outcomeIndex ls = seq 0 (length a)
    ∧ m < 1
    ∧ map stake ls = map Some stakes
    ∧ sumQc stakes = dec 100 1
    ∧ Forall (λ l, ∃ s, stake l = Some s ∧ s * effOdd l = dec 100 1 / m) ls.
Proof.
  intros r ls.
  apply (stake_allocation_equalises_payout "match" (Some [dec 21 10; dec 2 1])
           (Some [dec 18 10; dec 23 10]) (dec 100 1) 0 0 0 0 false false ls).
  vm_compute. reflexivity.
Defined.

(** Every result with [isArbitrage = true] comes from the last [return],
    whose object literal has no [margin] field. *)
Lemma arbitrage_result_has_no_margin mid oa od T gA gB cA cB fA fB :
  isArbitrage (calculateArbitrageOpportunity mid oa od T gA gB cA cB fA fB) = true →
  margin (calculateArbitrageOpportunity mid oa od T gA gB cA cB fA fB) = None.
Proof.
  unfold calculateArbitrageOpportunity.
  destruct fA, fB; simpl; try done.
  destruct oa as [a|], od as [d|]; simpl; try done.
  repeat (case_bool_decide; [done|]).
  destruct (selectLoop a d cA cB (seq 0 (length a)) loopInit) as [r|st] eqn:Hloop.
  - assert (isArbitrage r = false); [|congruence].
    revert Hloop. generalize loopInit, (seq 0 (length a)).
    intros st0 idxs. revert st0. induction idxs as [|i idxs IH]; intros st0; simpl; [done|].
    destruct (selectStep_cases a d cA cB i st0)
      as [(_ & _ & E)|[(_ & _ & _ & E)|[(_ & _ & E)|(_ & _ & E)]]]; rewrite E;
      try (intros [= <-]; done); apply IH.
  - by case_bool_decide.
Qed.

(** When the first loop completes with a margin of at least one, the
    result is [{ isArbitrage: false, margin }]: the numeric margin and no
    [reason], whatever the investment, the gas costs and the commissions. *)
Lemma margin_at_least_one_is_reported mid a d T gA gB cA cB st :
  a ≠ [] → length a = length d →
  selectLoop a d cA cB (seq 0 (length a)) loopInit = inr st →
  1 ≤ marginAcc st →
  calculateArbitrageOpportunity mid (Some a) (Some d) T gA gB cA cB false false
  = mkResult false (Some (marginAcc st)) None None None None None None.
Proof.
  intros Hne Hlen Hloop Hm. unfold calculateArbitrageOpportunity. simpl.
  rewrite bool_decide_eq_false_2 by (by destruct a).
  rewrite bool_decide_eq_false_2 by (by intros ?).
  rewrite Hloop. by rewrite bool_decide_eq_true_2.
Qed.

(** C2. On the two-outcome market [oddsA = [2.10, 2.00]],
    [oddsB = [1.80, 2.30]] with an investment of 100, no commission and no
    gas cost, the function reports an arbitrage and the object it returns
    has no [margin] field (nor a [reason]); its fields are [matchId],
    [profitPercentage], [minNetProfit], [legs] and [gasCosts]. *)
Theorem profitable_result_lacks_margin :
  let r := calculateArbitrageOpportunity "match" (Some [dec 21 10; dec 2 1])
             (Some [dec 18 10; dec 23 10]) (dec 100 1) 0 0 0 0 false false in
  isArbitrage r = true ∧ margin r = None ∧ reason r = None
  ∧ is_Some (legs r) ∧ is_Some (minNetProfit r) ∧ is_Some (gasCosts r).
Proof. vm_compute. repeat split; eauto. Qed.

End CalculatorClaims.

Section ShortCircuitClaims.
Import Calculator.





(** C5 (as amended). With no market frozen and a non-empty [oddsA], two
    odds arrays of different lengths give
    [{ isArbitrage: false, margin: 0, reason: "Odds array length mismatch" }],
    whatever the values in the arrays and the other arguments; the function
    returns this object, it does not throw. *)
Theorem length_mismatch_short_circuit mid a d T gA gB cA cB :
  a ≠ [] → length a ≠ length d →
  calculateArbitrageOpportunity mid (Some a) (Some d) T gA gB cA cB false false
  = mkResult false (Some 0) (Some "Odds array length mismatch") None None None None None.
Proof.
  intros Hne Hlen. unfold calculateArbitrageOpportunity. simpl.
  rewrite bool_decide_eq_false_2 by (by destruct a).
  by rewrite bool_decide_eq_true_2.
Qed.

Lemma length_mismatch_short_circuit_witness :
  calculateArbitrageOpportunity "match" (Some [dec 2 1; dec 3 1]) (Some [dec 2 1])
    (dec 100 1) 0 0 0 0 false false
  = mkResult false (Some 0) (Some "Odds array length mismatch") None None None None None.
Proof.
  apply (length_mismatch_short_circuit "match" [dec 2 1; dec 3 1] [dec 2 1]); [done|].
  simpl. lia.
Defined.

(** C5, the claim as written, fails: [oddsA = []] and [oddsB = [2]] have
    different lengths and the reason is ["Odds missing"]. *)
Lemma empty_odds_reported_missing :
  let a : list Qc := [] in
  let d := [dec 2 1] in
  length a ≠ length d
  ∧ reason (calculateArbitrageOpportunity "match" (Some a) (Some d) (dec 100 1) 0 0 0 0
              false false) = Some "Odds missing"
  ∧ reason (calculateArbitrageOpportunity "match" (Some a) (Some d) (dec 100 1) 0 0 0 0
              false false) ≠ Some "Odds array length mismatch".
Proof. repeat split; done. Qed.

End ShortCircuitClaims.

Section Binary64Facts.
Import Calculator64 PrimFloat.
#[local] Open Scope float_scope.

(** Swapping the operands of the IEEE comparison swaps its answer. *)
Lemma SFcompare_antisym x y :
  SpecFloat.SFcompare y x = option_map CompOpp (SpecFloat.SFcompare x y).
Proof.
  destruct x as [s1|s1| |s1 m1 e1], y as [s2|s2| |s2 m2 e2]; simpl; try reflexivity;
    try (destruct s1; reflexivity); try (destruct s2; reflexivity);
    try (destruct s1, s2; reflexivity).
  destruct s1, s2; try reflexivity.
  all: rewrite (Z.compare_antisym e1 e2); destruct (e1 ?= e2)%Z; simpl; try reflexivity.
  all: fold (Pos.compare m1 m2); fold (Pos.compare m2 m1);
       rewrite (Pos.compare_antisym m1 m2); try reflexivity.
  all: destruct (m1 ?= m2)%positive; reflexivity.
Qed.

(** [x === y] excludes [x > y]. *)
Lemma eqb_not_ltb (x y : float) : (x =? y) = true → (y <? x) = false.
Proof.
  rewrite FloatAxioms.eqb_spec, FloatAxioms.ltb_spec.
  unfold SpecFloat.SFeqb, SpecFloat.SFltb.
  rewrite (SFcompare_antisym (FloatOps.Prim2SF x) (FloatOps.Prim2SF y)).
  destruct (SpecFloat.SFcompare (FloatOps.Prim2SF x) (FloatOps.Prim2SF y)) as [[]|];
    simpl; congruence.
Qed.

(** [NaN <= x] is false for every [x]: no tolerance covers a distance that
    is [NaN]. *)
Lemma nan_leb (x : float) : (nan <=? x) = false.
Proof. rewrite FloatAxioms.leb_spec. reflexivity. Qed.

Lemma marginOf_snoc ls l : marginOf (ls ++ [l]) = marginOf ls + 1 / effOdd l.
Proof. unfold marginOf. by rewrite fold_left_app. Qed.

Lemma marginOf_allocate T m ls : marginOf (map (allocate T m) ls) = marginOf ls.
Proof.
  unfold marginOf. generalize 0.
  induction ls as [|l ls IH]; intros acc; simpl; [done|]. apply IH.
Qed.

(** The four ways an iteration can end. *)
Lemma selectStep64_cases a d cA cB i st :
  (((effAzuro a cA i =? 0) && (effDexsport d cB i =? 0)) = true
     ∧ passes a d cA cB i = false
     ∧ selectStep a d cA cB i st = inl (shortCircuit "Zero odds on an outcome"))
  ∨ (((effAzuro a cA i =? 0) && (effDexsport d cB i =? 0)) = false
     ∧ passes a d cA cB i = false
     ∧ selectStep a d cA cB i st = inl (shortCircuit "Zero odds on best outcome"))
  ∨ (passes a d cA cB i = true
     ∧ (effDexsport d cB i <? effAzuro a cA i) = true
     ∧ selectStep a d cA cB i st =
         inr (mkLoop (marginAcc st + 1 / effAzuro a cA i)
                (bestOdds st ++ [mkLeg i Calculator.azuro (effAzuro a cA i) (a !! i) None])
                true (usesDexsport st)))
  ∨ (passes a d cA cB i = true
     ∧ (effDexsport d cB i <? effAzuro a cA i) = false
     ∧ selectStep a d cA cB i st =
         inr (mkLoop (marginAcc st + 1 / effDexsport d cB i)
                (bestOdds st ++ [mkLeg i Calculator.overtime (effDexsport d cB i) (d !! i) None])
                (usesAzuro st) true)).
Proof.
  unfold selectStep, passes, bestEffOdd.
  destruct ((effAzuro a cA i =? 0) && (effDexsport d cB i =? 0)); [by left|].
  destruct (effDexsport d cB i <? effAzuro a cA i).
  - destruct (effAzuro a cA i <=? 0); simpl; [right; left; done|right; right; left; done].
  - destruct (effDexsport d cB i <=? 0); simpl; [right; left; done|right; right; right; done].
Qed.

(** An early return of the loop is one of the short-circuit objects. *)
Lemma selectLoop64_early a d cA cB idxs st r :
  selectLoop a d cA cB idxs st = inl r → ∃ why, r = shortCircuit why.
Proof.
  revert st. induction idxs as [|i idxs IH]; intros st; simpl; [done|].
  destruct (selectStep64_cases a d cA cB i st)
    as [(_ & _ & E)|[(_ & _ & E)|[(_ & _ & E)|(_ & _ & E)]]]; rewrite E;
    try (intros [= <-]; by eexists); apply IH.
Qed.

Lemma recorded_init a d cA cB : recorded a d cA cB 0 loopInit.
Proof. split; [done|done|constructor]. Qed.

Lemma selectLoop64_recorded a d cA cB n k st st' :
  selectLoop a d cA cB (seq k n) st = inr st' →
  recorded a d cA cB k st → recorded a d cA cB (k + n) st'.
Proof.
  revert k st. induction n as [|n IH]; intros k st; simpl.
  - intros [= <-]. by rewrite Nat.add_0_r.
  - replace (k + S n)%nat with (S k + n)%nat by lia.
    destruct (selectStep64_cases a d cA cB k st)
      as [(_ & _ & E)|[(_ & _ & E)|[(Hp & Hlt & E)|(Hp & Hge & E)]]];
      rewrite E; try done; intros Hloop [Hidx Hm Hall]; apply (IH _ _ Hloop);
      split; cbn [bestOdds marginAcc].
    + by rewrite map_app, seq_S, Hidx.
    + by rewrite marginOf_snoc, Hm.
    + apply Forall_app; split; [done|]. apply Forall_singleton.
      split; [done|]. left. by repeat split.
    + by rewrite map_app, seq_S, Hidx.
    + by rewrite marginOf_snoc, Hm.
    + apply Forall_app; split; [done|]. apply Forall_singleton.
      split; [done|]. right. by repeat split.
Qed.

(** The loop cannot get past an outcome whose effective odds are both
    zero; it returns there when every earlier outcome passed. *)
Lemma selectLoop64_stops_at_zero a d cA cB n k j st :
  (k ≤ j < k + n)%nat →
  ((effAzuro a cA j =? 0) && (effDexsport d cB j =? 0)) = true →
  (∃ why, selectLoop a d cA cB (seq k n) st = inl (shortCircuit why))
  ∧ ((∀ i, (k ≤ i < j)%nat → passes a d cA cB i = true) →
     selectLoop a d cA cB (seq k n) st = inl (shortCircuit "Zero odds on an outcome")).
Proof.
  revert k st. induction n as [|n IH]; intros k st Hj Hz; [lia|].
  simpl. destruct (decide (k = j)) as [->|Hkj].
  - destruct (selectStep64_cases a d cA cB j st)
      as [(_ & _ & E)|[(Hn & _)|[(_ & _ & E)|(_ & _ & E)]]]; [|congruence| |].
    + rewrite E. split; [by eexists|done].
    + exfalso. revert E. unfold selectStep. by rewrite Hz.
    + exfalso. revert E. unfold selectStep. by rewrite Hz.
  - destruct (selectStep64_cases a d cA cB k st)
      as [(_ & Hp & E)|[(_ & Hp & E)|[(_ & _ & E)|(_ & _ & E)]]]; rewrite E.
    + split; [by eexists|]. intros Hearlier.
      specialize (Hearlier k ltac:(lia)). congruence.
    + split; [by eexists|]. intros Hearlier.
      specialize (Hearlier k ltac:(lia)). congruence.
    + destruct (IH (S k) (mkLoop (marginAcc st + 1 / effAzuro a cA k)
                (bestOdds st ++ [mkLeg k Calculator.azuro (effAzuro a cA k) (a !! k) None])
                true (usesDexsport st)) ltac:(lia) Hz) as [H1 H2].
      split; [done|]. intros Hearlier. apply H2. intros i Hi. apply Hearlier. lia.
    + destruct (IH (S k) (mkLoop (marginAcc st + 1 / effDexsport d cB k)
                (bestOdds st ++ [mkLeg k Calculator.overtime (effDexsport d cB k) (d !! k) None])
                (usesAzuro st) true) ltac:(lia) Hz) as [H1 H2].
      split; [done|]. intros Hearlier. apply H2. intros i Hi. apply Hearlier. lia.
Qed.

(** The function returns [legs] exactly when the loop completes and
    [margin >= 1] is false: the inputs and the loop state behind such a
    result. *)
Lemma legs64_inversion mid oa od T gA gB cA cB fA fB ls :
  legs (calculateArbitrageOpportunity mid oa od T gA gB cA cB fA fB) = Some ls →
  ∃ a d st,
    oa = Some a ∧ od = Some d ∧ fA = false ∧ fB = false
    ∧ a ≠ [] ∧ length a = length d
    ∧ selectLoop a d cA cB (seq 0 (length a)) loopInit = inr st
    ∧ (1 <=? marginAcc st) = false
    ∧ ls = map (allocate T (marginAcc st)) (bestOdds st).
Proof.
  unfold calculateArbitrageOpportunity.
  destruct fA, fB; simpl; try done.
  destruct oa as [a|], od as [d|]; simpl; try done.
  case_bool_decide as Hlen; [done|].
  case_bool_decide as Hneq; [done|].
  destruct (selectLoop a d cA cB (seq 0 (length a)) loopInit) as [r|st] eqn:Hloop.
  - destruct (selectLoop64_early _ _ _ _ _ _ _ Hloop) as [why ->]. done.
  - destruct (1 <=? marginAcc st) eqn:Hm; [done|]. simpl. intros [= <-].
    exists a, d, st. repeat split; try done; by intros ->.
Qed.

(** What holds of every returned [legs] list, whatever the numbers are:
    the legs carry the outcome indices [0 .. n-1] in order, [margin >= 1]
    was false of the accumulated margin, and every stake is the value of
    [totalInvestment * (1 / effOdd) / margin]. *)
Lemma returned_legs_follow_the_formula mid oa od T gA gB cA cB fA fB ls :
  legs (calculateArbitrageOpportunity mid oa od T gA gB cA cB fA fB) = Some ls →
  ∃ a, oa = Some a
    ∧ map outcomeIndex ls = seq 0 (length a)
    ∧ (1 <=? marginOf ls) = false
    ∧ Forall (λ l, stake l = Some (T * (1 / effOdd l) / marginOf ls)) ls.
Proof.
  intros Hlegs.
  destruct (legs64_inversion _ _ _ _ _ _ _ _ _ _ _ Hlegs)
    as (a & d & st & -> & -> & -> & -> & _ & _ & Hloop & Hm & ->).
  destruct (selectLoop64_recorded _ _ _ _ _ 0 _ _ Hloop (recorded_init a d cA cB))
    as [Hidx Hmar _].
  exists a. rewrite marginOf_allocate, <- Hmar.
  split; [done|]. split; [by rewrite map_map|]. split; [done|].
  apply Forall_map. by apply Forall_true.
Qed.

End Binary64Facts.

Section Binary64Claims.
Import Calculator64 PrimFloat.
#[local] Open Scope float_scope.
#[local] Set Warnings "-inexact-float".

(** C1. The claim fails on the code for odds the Overtime fetcher
    delivers when the AMM quotes zero: [targetStakeUsd / 0] is [Infinity].
    With [oddsB = [Infinity, Infinity]] no check of the first loop fires,
    the margin is [0], the call reaches the stake allocation and reports
    an arbitrage, every stake is [NaN], and neither the sum of the stakes
    nor any payout [stake * effOdd] is within any tolerance of
    [totalInvestment], resp. [totalInvestment / margin].  With one
    infinite odd, [oddsB = [Infinity, 1.8]], the margin is below one, the
    leg of outcome 0 receives the stake [0] and its payout is [NaN]. *)
Theorem infinite_odds_reach_allocation :
  let T := 100 in
  let r := calculateArbitrageOpportunity "match" (Some [1.9; 1.9])
             (Some [infinity; infinity]) T 0.01 0.1 0.05 0.03 false false in
  let r' := calculateArbitrageOpportunity "match" (Some [1.9; 1.9])
              (Some [infinity; 1.8]) T 0.01 0.1 0.05 0.03 false false in
  (isArbitrage r = true
   ∧ ∃ ls, legs r = Some ls
       ∧ map outcomeIndex ls = [0; 1]%nat
       ∧ map effOdd ls = [infinity; infinity]
       ∧ marginOf ls = 0 ∧ (marginOf ls <? 1) = true
       ∧ map stake ls = [Some nan; Some nan]
       ∧ (∀ tol, (abs (sumStakes ls - T) <=? tol) = false)
       ∧ Forall (λ l, ∀ tol, (abs (payout l - T / marginOf ls) <=? tol) = false) ls)
  ∧ (isArbitrage r' = true
     ∧ ∃ l0 l1, legs r' = Some [l0; l1]
         ∧ outcomeIndex l0 = 0%nat ∧ effOdd l0 = infinity ∧ stake l0 = Some 0
         ∧ (marginOf [l0; l1] <? 1) = true
         ∧ ∀ tol, (abs (payout l0 - T / marginOf [l0; l1]) <=? tol) = false).
Proof.
  split.
  - split; [by vm_compute|]. eexists. split; [by vm_compute|].
    repeat split; try (by vm_compute).
    + intros tol. vm_compute (abs _). apply nan_leb.
    + repeat constructor; intros tol; vm_compute (abs _); apply nan_leb.
  - split; [by vm_compute|]. eexists _, _. split; [by vm_compute|].
    repeat split; try (by vm_compute).
    intros tol. vm_compute (abs _). apply nan_leb.
Qed.

(** C10 (as amended). In every [legs] list the function returns, the leg
    of an outcome is on venue A exactly when A's effective odds, as
    computed, compare strictly greater than B's, and on venue B otherwise;
    so a leg whose two effective odds are equal is on venue B; it carries
    the effective odds of its venue, which are not [<= 0].  When both effective odds
    of some outcome are zero the function returns one of its
    [{ isArbitrage: false, margin: 0, reason }] objects, without legs; the
    reason is ["Zero odds on an outcome"] when no market is frozen, the
    arrays have the same length and every earlier outcome passed both
    checks of the loop. *)
Theorem ties_go_to_venue_B mid a d T gA gB cA cB fA fB :
  let r := calculateArbitrageOpportunity mid (Some a) (Some d) T gA gB cA cB fA fB in
  (∀ ls, legs r = Some ls →
     map outcomeIndex ls = seq 0 (length a)
     ∧ Forall (λ l,
          let i := outcomeIndex l in
          (bookie l = Calculator.azuro
             ↔ (effDexsport d cB i <? effAzuro a cA i) = true)
          ∧ (bookie l = Calculator.overtime
             ↔ (effDexsport d cB i <? effAzuro a cA i) = false)
          ∧ ((effAzuro a cA i =? effDexsport d cB i) = true
             → bookie l = Calculator.overtime)
          ∧ effOdd l = bestEffOdd a d cA cB i
          ∧ (effOdd l <=? 0) = false) ls)
  ∧ (∀ j, (j < length a)%nat →
       (effAzuro a cA j =? 0) = true → (effDexsport d cB j =? 0) = true →
       (∃ why, r = shortCircuit why)
       ∧ (fA = false → fB = false → length a = length d →
          (∀ i, (i < j)%nat → passes a d cA cB i = true) →
          r = shortCircuit "Zero odds on an outcome")).
Proof.
  intros r. split.
  - intros ls Hlegs.
    destruct (legs64_inversion _ _ _ _ _ _ _ _ _ _ _ Hlegs)
      as (a' & d' & st & [= <-] & [= <-] & -> & -> & _ & _ & Hloop & _ & ->).
    destruct (selectLoop64_recorded _ _ _ _ _ 0 _ _ Hloop (recorded_init a d cA cB))
      as [Hidx _ Hall].
    split; [by rewrite map_map|].
    apply Forall_map. eapply Forall_impl; [|exact Hall].
    intros l [Hp Hl]. cbn [allocate outcomeIndex bookie effOdd].
    unfold passes, bestEffOdd in *.
    destruct Hl as [(Hb & Hlt & He & _)|(Hb & Hge & He & _)]; rewrite Hb, He;
      [rewrite Hlt in *|rewrite Hge in *].
    + repeat split; try done.
      * intros Heq. apply eqb_not_ltb in Heq. congruence.
      * apply andb_true_iff in Hp as [_ Hp]. by apply negb_true_iff in Hp.
    + repeat split; try done.
      apply andb_true_iff in Hp as [_ Hp]. by apply negb_true_iff in Hp.
  - intros j Hj Ha Hd.
    assert (Hz : ((effAzuro a cA j =? 0) && (effDexsport d cB j =? 0)) = true)
      by (by rewrite Ha, Hd).
    subst r. unfold calculateArbitrageOpportunity.
    destruct fA, fB; simpl; try (split; [by eexists|done]).
    case_bool_decide as Hlen; [lia|].
    case_bool_decide as Hneq; [split; [by eexists|done]|].
    destruct (selectLoop64_stops_at_zero a d cA cB (length a) 0 j loopInit ltac:(lia) Hz)
      as [[why E] Hfirst].
    split.
    + rewrite E. by eexists.
    + intros _ _ _ Hearlier. rewrite Hfirst; [done|]. intros i Hi. apply Hearlier. lia.
Qed.

Lemma ties_go_to_venue_B_witness :
  let a := [2.5; 2] in
  let d := [2.5; 2.2] in
  let r := calculateArbitrageOpportunity "match" (Some a) (Some d) 100 0 0 0 0 false false in
  (effAzuro a 0 0 =? effDexsport d 0 0) = true
  ∧ ∃ l0 l1, legs r = Some [l0; l1]
      ∧ outcomeIndex l0 = 0%nat ∧ bookie l0 = Calculator.overtime.
Proof.
  intros a d r. split; [by vm_compute|].
  eexists _, _. split; [by vm_compute|]. split; [done|].
  destruct (ties_go_to_venue_B "match" a d 100 0 0 0 0 false false) as [H _].
  destruct (H _ ltac:(vm_compute; reflexivity)) as [_ Hall].
  inversion_clear Hall as [|?? (_ & _ & Htie & _) _].
  apply Htie. by vm_compute.
Defined.

(** C10, the claim as written, fails: for [oddsA = [2, 0]] and
    [oddsB = [3, 0]] outcome 0 passes the zero check and the effective odds
    of outcome 1 are equal (both zero), yet no leg is routed to venue B for
    outcome 1: the function returns ["Zero odds on an outcome"] and the
    result has no legs. *)
Lemma equal_zero_odds_route_nothing :
  let a := [2; 0] in
  let d := [3; 0] in
  let r := calculateArbitrageOpportunity "match" (Some a) (Some d) 100 0 0 0 0 false false in
  passes a d 0 0 0 = true
  ∧ (effAzuro a 0 1 =? effDexsport d 0 1) = true
  ∧ (effAzuro a 0 1 =? 0) = true ∧ (effDexsport d 0 1 =? 0) = true
  ∧ r = shortCircuit "Zero odds on an outcome"
  ∧ ¬ (∃ ls l, legs r = Some ls ∧ l ∈ ls
         ∧ outcomeIndex l = 1%nat ∧ bookie l = Calculator.overtime).
Proof.
  intros a d r. repeat split; try (by vm_compute).
  intros (ls & l & Hlegs & _). by vm_compute in Hlegs.
Qed.

(** The venue is decided by the rounded products: for [oddsA = [2.619]],
    [oddsB = [2.565]] and the commissions 0.05 and 0.03 both effective
    odds are the double 2.48805, and the leg goes to venue B. *)
Example rounded_products_decide_the_venue :
  let a := [2.619] in
  let d := [2.565] in
  effAzuro a 0.05 0 = 2.48805 ∧ effDexsport d 0.03 0 = 2.48805
  ∧ ∃ l, legs (calculateArbitrageOpportunity "match" (Some a) (Some d) 100 0 0 0.05 0.03
                 false false) = Some [l]
      ∧ bookie l = Calculator.overtime.
Proof. repeat split; try (by vm_compute). eexists. split; by vm_compute. Qed.

(** With finite odds the stakes need not sum to [totalInvestment] exactly:
    for [[1.5, 6, 6]] on both venues the accumulated margin is
    0.9999999999999999, the allocation is reached and the stakes sum to
    100.00000000000001. *)
Example margin_just_below_one :
  let a := [1.5; 6; 6] in
  let r := calculateArbitrageOpportunity "match" (Some a) (Some a) 100 0 0 0 0 false false in
  ∃ ls, legs r = Some ls
    ∧ marginOf ls = 0.9999999999999999
    ∧ sumStakes ls = 100.00000000000001.
Proof. eexists. repeat split; by vm_compute. Qed.

End Binary64Claims.

Section DiceFacts.
Import Matcher.

Implicit Types (m : gmap string nat) (M R : gmultiset string) (L : list string).

(** The [Map] of the first loop read as a multiset of bigrams. *)
Lemma getCount_countBigram m M b :
  (∀ k, getCount m k = multiplicity k M) →
  ∀ k, getCount (countBigram m b) k = multiplicity k (M ⊎ {[+ b +]}).
Proof.
  intros Hm k. unfold countBigram, getCount at 1.
  rewrite multiplicity_disj_union, multiplicity_singleton.
  destruct (decide (k = b)) as [->|Hne].
  - rewrite lookup_insert_eq. simpl. by rewrite Hm.
  - rewrite lookup_insert_ne by done. fold (getCount m k). rewrite Hm. lia.
Qed.

Lemma getCount_build L m M :
  (∀ k, getCount m k = multiplicity k M) →
  ∀ k, getCount (fold_left countBigram L m) k
       = multiplicity k (M ⊎ list_to_set_disj L).
Proof.
  revert m M. induction L as [|b L IH]; intros m M Hm k; simpl.
  - rewrite Hm, multiplicity_disj_union, multiplicity_empty. lia.
  - rewrite (IH _ (M ⊎ {[+ b +]})) by (by apply getCount_countBigram).
    rewrite !multiplicity_disj_union. lia.
Qed.

Lemma getCount_buildBigrams s k :
  getCount (buildBigrams s) k = multiplicity k (list_to_set_disj (bigramsOf s)).
Proof.
  unfold buildBigrams. rewrite (getCount_build _ ∅ ∅).
  - rewrite multiplicity_disj_union, multiplicity_empty. lia.
  - intros k'. unfold getCount. by rewrite lookup_empty, multiplicity_empty.
Qed.

(** The second loop counts the multiset intersection. *)
Lemma consume_counts_intersection L m M n :
  (∀ k, getCount m k = multiplicity k M) →
  (fold_left consumeBigram L (m, n)).2 = (n + size (M ∩ list_to_set_disj L))%nat.
Proof.
  revert m M n. induction L as [|b L IH]; intros m M n Hm; simpl.
  - replace (M ∩ ∅) with (∅ : gmultiset string) by multiset_solver.
    rewrite gmultiset_size_empty. lia.
  - unfold consumeBigram at 2. simpl. rewrite Hm. case_bool_decide as Hb.
    + rewrite (IH _ (M ∖ {[+ b +]})).
      * replace (M ∩ ({[+ b +]} ⊎ list_to_set_disj L))
          with ({[+ b +]} ⊎ ((M ∖ {[+ b +]}) ∩ list_to_set_disj L))
          by multiset_solver.
        rewrite gmultiset_size_disj_union, gmultiset_size_singleton. lia.
      * intros k. unfold getCount.
        rewrite multiplicity_difference, multiplicity_singleton.
        destruct (decide (k = b)) as [->|Hne].
        -- by rewrite lookup_insert_eq.
        -- rewrite lookup_insert_ne by done. fold (getCount m k). rewrite Hm. lia.
    + rewrite (IH _ M) by done.
      replace (M ∩ ({[+ b +]} ⊎ list_to_set_disj L)) with (M ∩ list_to_set_disj L)
        by multiset_solver.
      done.
Qed.

Lemma intersectionCount_spec s1 s2 :
  intersectionCount s1 s2
  = size (list_to_set_disj (bigramsOf s1) ∩ list_to_set_disj (bigramsOf s2)
          : gmultiset string).
Proof.
  unfold intersectionCount.
  by rewrite (consume_counts_intersection _ _ (list_to_set_disj (bigramsOf s1)))
    by apply getCount_buildBigrams.
Qed.

Lemma intersectionCount_comm s1 s2 : intersectionCount s1 s2 = intersectionCount s2 s1.
Proof. rewrite !intersectionCount_spec. f_equal. multiset_solver. Qed.

Lemma diceCoefficient_comm s1 s2 : diceCoefficient s1 s2 = diceCoefficient s2 s1.
Proof.
  unfold diceCoefficient.
  rewrite (orb_comm (bool_decide (s1 = ""))).
  destruct (bool_decide (s2 = "") || bool_decide (s1 = "")); [done|].
  destruct (decide (s1 = s2)) as [->|Hne]; [done|].
  rewrite (bool_decide_eq_false_2 (s1 = s2)), (bool_decide_eq_false_2 (s2 = s1))
    by congruence.
  rewrite (orb_comm (bool_decide (String.length s1 < 2)%nat)).
  destruct (bool_decide (String.length s2 < 2)%nat || bool_decide (String.length s1 < 2)%nat);
    [done|].
  by rewrite intersectionCount_comm, (Nat.add_comm (String.length s1 - 1)).
Qed.

Lemma diceCoefficient_same s : s ≠ "" → diceCoefficient s s = 1.
Proof.
  intros Hs. unfold diceCoefficient.
  rewrite !bool_decide_eq_false_2 by done. simpl.
  by rewrite bool_decide_eq_true_2.
Qed.

Lemma diceCoefficient_short s1 s2 :
  (String.length s1 < 2 ∨ String.length s2 < 2)%nat → s1 ≠ s2 →
  diceCoefficient s1 s2 = 0.
Proof.
  intros Hlen Hne. unfold diceCoefficient.
  destruct (bool_decide (s1 = "") || bool_decide (s2 = "")); [done|].
  rewrite bool_decide_eq_false_2 by done.
  destruct Hlen as [H|H].
  - by rewrite (bool_decide_eq_true_2 _ H).
  - rewrite (bool_decide_eq_true_2 (String.length s2 < 2)%nat H). by rewrite orb_true_r.
Qed.

(** C6 (as amended). [diceCoefficient] is symmetric; it is 1 on two
    identical non-empty strings, those of length one included; it is 0
    when either string is empty, and when either string has fewer than two
    characters and the two strings differ. *)
Theorem dice_symmetric_identity_short :
  (∀ s1 s2, diceCoefficient s1 s2 = diceCoefficient s2 s1)
  ∧ (∀ s, (1 ≤ String.length s)%nat → diceCoefficient s s = 1)
  ∧ (∀ s, diceCoefficient "" s = 0 ∧ diceCoefficient s "" = 0)
  ∧ (∀ s1 s2, (String.length s1 < 2 ∨ String.length s2 < 2)%nat → s1 ≠ s2 →
       diceCoefficient s1 s2 = 0).
Proof.
  split; [exact diceCoefficient_comm|]. split; [|split].
  - intros s Hs. apply diceCoefficient_same. intros ->. simpl in Hs. lia.
  - intros s. split; [done|]. by rewrite diceCoefficient_comm.
  - exact diceCoefficient_short.
Qed.

Lemma dice_symmetric_identity_short_witness :
  diceCoefficient "night" "nacht" = diceCoefficient "nacht" "night"
  ∧ diceCoefficient "arsenal" "arsenal" = 1
  ∧ diceCoefficient "a" "a" = 1
  ∧ diceCoefficient "a" "arsenal" = 0.
Proof.
  destruct dice_symmetric_identity_short as (Hsym & Hsame & _ & Hshort).
  split; [apply Hsym|]. split; [apply Hsame; simpl; lia|].
  split; [apply Hsame; simpl; lia|].
  apply Hshort; [left; simpl; lia|done].
Defined.

(** C6, the claim as written, fails: ["a"] has fewer than two characters
    and [diceCoefficient "a" "a"] is 1, not 0. *)
Lemma dice_of_equal_single_characters :
  (String.length "a" < 2)%nat
  ∧ diceCoefficient "a" "a" = 1
  ∧ diceCoefficient "a" "a" ≠ 0.
Proof.
  split; [simpl; lia|]. split; [by apply diceCoefficient_same|].
  rewrite diceCoefficient_same by done. done.
Qed.

End DiceFacts.

Section MatcherFacts.
Import Matcher.

(** [findBestMatch] keeps the first candidate whose score is the greatest,
    provided some score exceeds the initial rating. *)
Lemma findBestLoop_spec s ts i best :
  let r := findBestLoop s ts i best in
  (r = best ∧ Forall (λ t, diceCoefficient s t ≤ rating best) ts)
  ∨ (∃ j t, ts !! j = Some t
       ∧ r = mkBest (diceCoefficient s t) (i + j) t
       ∧ rating best < diceCoefficient s t
       ∧ (∀ j' t', ts !! j' = Some t' → diceCoefficient s t' ≤ diceCoefficient s t)
       ∧ (∀ j' t', (j' < j)%nat → ts !! j' = Some t' →
            diceCoefficient s t' < diceCoefficient s t)).
Proof.
  revert i best. induction ts as [|t0 ts IH]; intros i best; simpl.
  - left. by split.
  - case_bool_decide as Hlt.
    + destruct (IH (S i) (mkBest (diceCoefficient s t0) i t0))
        as [[Hr Hall]|(j & t & Hj & Hr & Hgt & Hmax & Hfirst)]; simpl in *.
      * right. exists 0%nat, t0. rewrite Nat.add_0_r. repeat split; try done.
        -- intros [|j'] t' Ht'; simpl in Ht'.
           ++ injection Ht' as <-. apply Qcle_refl.
           ++ rewrite Forall_lookup in Hall. by eapply Hall.
        -- intros j' t' Hj'. lia.
      * right. exists (S j), t. replace (i + S j)%nat with (S i + j)%nat by lia.
        repeat split; try done.
        -- by eapply Qclt_trans.
        -- intros [|j'] t' Ht'; simpl in Ht'.
           ++ injection Ht' as <-. by apply Qclt_le_weak.
           ++ by eapply Hmax.
        -- intros [|j'] t' Hj' Ht'; simpl in Ht'.
           ++ by injection Ht' as <-.
           ++ eapply Hfirst; [|done]. lia.
    + apply Qcnot_lt_le in Hlt.
      destruct (IH (S i) best) as [[Hr Hall]|(j & t & Hj & Hr & Hgt & Hmax & Hfirst)].
      * left. split; [done|]. by constructor.
      * right. exists (S j), t. replace (i + S j)%nat with (S i + j)%nat by lia.
        repeat split; try done.
        -- intros [|j'] t' Ht'; simpl in Ht'.
           ++ injection Ht' as <-. apply Qclt_le_weak. by eapply Qcle_lt_trans.
           ++ by eapply Hmax.
        -- intros [|j'] t' Hj' Ht'; simpl in Ht'.
           ++ injection Ht' as <-. by eapply Qcle_lt_trans.
           ++ eapply Hfirst; [|done]. lia.
Qed.

Lemma findBestMatch_spec s ts :
  let r := findBestMatch s ts in
  (r = mkBest 0 0 "" ∧ Forall (λ t, diceCoefficient s t ≤ 0) ts)
  ∨ (∃ t, ts !! bestMatchIndex r = Some t
       ∧ target r = t ∧ rating r = diceCoefficient s t ∧ 0 < rating r
       ∧ (∀ j' t', ts !! j' = Some t' → diceCoefficient s t' ≤ rating r)
       ∧ (∀ j' t', (j' < bestMatchIndex r)%nat → ts !! j' = Some t' →
            diceCoefficient s t' < rating r)).
Proof.
  intros r. subst r. unfold findBestMatch.
  destruct (findBestLoop_spec s ts 0 (mkBest 0 0 ""))
    as [[Hr Hall]|(j & t & Hj & Hr & Hgt & Hmax & Hfirst)].
  - by left.
  - right. exists t. rewrite Hr. simpl. by repeat split.
Qed.




(** When no candidate of the bucket is discarded for its short name, the
    index [findBestMatch] returns does designate the best-scoring
    candidate in the bucket. *)
Lemma winning_event_when_none_discarded s bucket :
  Forall (λ t, (1 < String.length (cleanStr (name t)))%nat) bucket →
  let r := findBestMatch s (targetNames bucket) in
  0 < rating r →
  ∃ w, bucket !! bestMatchIndex r = Some w
    ∧ rating r = diceCoefficient s (cleanStr (name w))
    ∧ (∀ j t, bucket !! j = Some t →
         diceCoefficient s (cleanStr (name t)) ≤ rating r)
    ∧ (∀ j t, (j < bestMatchIndex r)%nat → bucket !! j = Some t →
         diceCoefficient s (cleanStr (name t)) < rating r).
Proof.
  intros Hall.
  assert (Hnames : targetNames bucket = map (λ t, cleanStr (name t)) bucket).
  { unfold targetNames. induction Hall as [|t ts Ht _ IH]; [done|].
    cbn [map]. rewrite filter_cons_True by done. by rewrite IH. }
  rewrite Hnames. intros r Hpos. subst r.
  destruct (findBestMatch_spec s (map (λ t, cleanStr (name t)) bucket))
    as [[Hr _]|(t & Ht & _ & Hrat & _ & Hmax & Hfirst)].
  - rewrite Hr in Hpos. by apply Qclt_not_eq in Hpos.
  - rewrite list_lookup_fmap in Ht.
    destruct (bucket !! _) as [w|] eqn:Hw; [|done]. simpl in Ht. injection Ht as <-.
    exists w. repeat split; try done.
    + intros j t Hj. apply (Hmax j). by rewrite list_lookup_fmap, Hj.
    + intros j t Hlt Hj. apply (Hfirst j); [done|]. by rewrite list_lookup_fmap, Hj.
Qed.


End MatcherFacts.

Section MatcherClaims.
Import Matcher.



(** The boundary on concrete events: 129600 seconds apart is matched,
    129601 seconds apart is not. *)
Example time_gate_boundary :
  let a := mkEvent "az1" "Arsenal vs Chelsea" (Some "Soccer") (dec 1000 1) None in
  let o (t : Z) := mkEvent "ov1" "Arsenal - Chelsea" (Some "soccer") (dec t 1) None in
  (length ∘ snd <$> hydrateDictionaryByCompositeKey [a] [o 130600%Z]) = Some 1%nat
  ∧ (length ∘ snd <$> hydrateDictionaryByCompositeKey [a] [o 130601%Z]) = Some 0%nat
  ∧ (length ∘ snd <$> hydrateDictionaryByCompositeKey [a] [o (-128600)%Z]) = Some 1%nat
  ∧ (length ∘ snd <$> hydrateDictionaryByCompositeKey [a] [o (-128601)%Z]) = Some 0%nat.
Proof. by vm_compute. Qed.

(** C3. With a source event named "Arsenal vs Chelsea" and a bucket whose
    first event is named "?" and whose second is named "Arsenal - Chelsea",
    the only candidate left after the filter, and so the best-scoring one,
    is the second event (score above 0.45), but the pair the matcher emits
    has the first event as [eventB], and it is the first event whose name
    is overwritten; the second keeps its name. *)
Theorem discarded_candidate_shifts_winner :
  let a := mkEvent "az1" "Arsenal vs Chelsea" (Some "Soccer") 0 None in
  let t0 := mkEvent "ov0" "?" (Some "soccer") 0 None in
  let t1 := mkEvent "ov1" "Arsenal - Chelsea" (Some "soccer") 0 None in
  let r := findBestMatch (cleanStr (name a)) (targetNames [t0; t1]) in
  targetNames [t0; t1] = [cleanStr (name t1)]
  ∧ target r = cleanStr (name t1)
  ∧ dec 45 100 < rating r
  ∧ diceCoefficient (cleanStr (name a)) (cleanStr (name t0)) = 0
  ∧ ∃ σ pairs,
      hydrateDictionaryByCompositeKey [a] [t0; t1] = Some (σ, pairs)
      ∧ map (λ p, (id p.1, id p.2, name p.2)) (resolvePairs (σ, pairs))
        = [("az1", "ov0", "Arsenal vs Chelsea")]
      ∧ map (λ t, (id t, name t)) <$> σ !! "soccer"
        = Some [("ov0", "Arsenal vs Chelsea"); ("ov1", "Arsenal - Chelsea")].
Proof.
  intros a t0 t1 r.
  split; [by vm_compute|]. split; [by vm_compute|]. split; [by vm_compute|].
  split; [by vm_compute|].
  eexists _, _. split; [by vm_compute|]. split; by vm_compute.
Qed.

End MatcherClaims.

Section CoordinatorFacts.
Import Calculator Matcher Coordinator.

Lemma extends_refl r : extends r r.
Proof.
  split; [done|done|]. exists []. split; [by rewrite app_nil_r|].
  intros a o res H. by apply elem_of_nil in H.
Qed.

Lemma extends_trans r1 r2 r3 : extends r1 r2 → extends r2 r3 → extends r1 r3.
Proof.
  intros [Hm1 Hf1 (n1 & Hw1 & He1)] [Hm2 Hf2 (n2 & Hw2 & He2)].
  split; [set_solver|congruence|].
  exists (n1 ++ n2). split; [by rewrite Hw2, Hw1, app_assoc|].
  intros a o res [H|H]%elem_of_app; [by eapply He1|].
  apply He2 in H. set_solver.
Qed.

Lemma emit_extends e r :
  (∀ a o res, e ≠ EExecute a o res) → extends r (emit e r).
Proof.
  intros He. split; [done|done|]. exists [e]. split; [done|].
  intros a o res H%list_elem_of_singleton. by destruct (He a o res).
Qed.

Lemma refine_extends cfg env k subAz subOv r :
  extends r (refine cfg env k subAz subOv r).2
  ∧ (refine cfg env k subAz subOv r).2.1 = r.1.
Proof.
  unfold refine.
  destruct (POLYGON_WS_URL cfg); [destruct (liveAzuro env k (id subAz))|];
    simpl; try (split; [by apply emit_extends|done]);
    (destruct (ARBITRUM_RPC_URL cfg); [destruct (liveOvertime env k (id subOv))|]);
    simpl; repeat case_match; simplify_eq; simpl;
    (split; [|done]);
    first [ apply extends_refl
          | by apply emit_extends
          | eapply extends_trans; by apply emit_extends ].
Qed.

Lemma processPair_extends cfg env gasP gasA k pair r :
  extends r (processPair cfg env gasP gasA k pair r).2.
Proof.
  unfold processPair.
  destruct (seen _ r.1) eqn:Hseen; [apply extends_refl|].
  apply bool_decide_eq_false_1 in Hseen.
  pose proof (refine_extends cfg env k pair.1 pair.2 r) as [Hext Hst].
  destruct (refine cfg env k pair.1 pair.2 r) as [[[la lo]|] r1]; simpl in *; [|done].
  set (res := calculateArbitrageOpportunity _ _ _ _ _ _ _ _ _ _).
  assert (Hcalc : extends r (emit (ECalculate (id pair.1) (id pair.2)) r1)).
  { eapply extends_trans; [done|]. by apply emit_extends. }
  destruct (isArbitrage res); [|done].
  set (r2 := emit (ECalculate (id pair.1) (id pair.2)) r1) in *.
  assert (Hexec : extends r (emit (EExecute (id pair.1) (id pair.2)
                                     (withMatchId (id pair.1) res)) r2)).
  { destruct Hcalc as [Hm Hf (new & Hw & He)]. split; [done|done|].
    exists (new ++ [EExecute (id pair.1) (id pair.2) (withMatchId (id pair.1) res)]).
    split; [unfold emit at 1; cbn [snd]; by rewrite Hw, app_assoc|].
    intros a o res' [H|H%list_elem_of_singleton]%elem_of_app; [by eapply He|].
    by simplify_eq. }
  destruct (evaluateAndExecute env k _); simpl; [|done].
  destruct Hexec as [Hm Hf Hw]. split; simpl; [|done|done].
  etrans; [exact Hm|]. apply union_subseteq_r.
Qed.

Lemma processPairs_extends cfg env gasP gasA k pairs r :
  extends r (processPairs cfg env gasP gasA k pairs r).2.
Proof.
  revert k r. induction pairs as [|p pairs IH]; intros k r; simpl.
  - apply extends_refl.
  - pose proof (processPair_extends cfg env gasP gasA k p r) as Hp.
    destruct (processPair cfg env gasP gasA k p r) as [[] r']; simpl in *; [|done].
    eapply extends_trans; [done|apply IH].
Qed.

Lemma tryBody_extends cfg env r : extends r (tryBody cfg env r).2.
Proof.
  unfold tryBody.
  assert (H1 : extends r (emit EFetch r)) by (by apply emit_extends).
  destruct (fetchAzuro env) as [azuroData|], (fetchOvertime env) as [overtimeData|];
    simpl; try done.
  set (r2 := (snapshot azuroData overtimeData r.1, r.2 ++ [EFetch]) : Run).
  assert (H2 : extends r r2).
  { destruct H1 as [Hm Hf Hw]. unfold r2, snapshot. case_match; by split. }
  assert (H3 : extends r (emit EMatch r2)).
  { eapply extends_trans; [done|]. by apply emit_extends. }
  destruct (hydrateDictionaryByCompositeKey azuroData overtimeData); simpl; [|done].
  case_bool_decide; [|done].
  assert (H4 : extends r (emit EGas (emit EMatch r2))).
  { eapply extends_trans; [done|]. by apply emit_extends. }
  destruct (gasPolygon env), (gasArbitrum env); try done.
  eapply extends_trans; [done|apply processPairs_extends].
Qed.

(** One request, then any number of requests: marks are kept, and nothing
    already marked is handed to execution. *)
Lemma runDiscoveryCycle_marks cfg env st :
  placedBets st ⊆ placedBets (runDiscoveryCycle cfg env st).1
  ∧ ∀ a o res, EExecute a o res ∈ (runDiscoveryCycle cfg env st).2 →
      betKey a o ∉ placedBets st.
Proof.
  unfold runDiscoveryCycle. destruct (isDiscoveryRunning st).
  - split; [done|]. intros a o res H. by apply elem_of_nil in H.
  - pose proof (tryBody_extends cfg env (setRunning true st, [])) as [Hm _ (new & Hw & He)].
    destruct (tryBody cfg env (setRunning true st, [])) as [c [st' work]].
    simpl in *. subst work. by split.
Qed.

Lemma runCycles_marks cfg envs st :
  placedBets st ⊆ placedBets (runCycles cfg envs st).1
  ∧ ∀ a o res, EExecute a o res ∈ (runCycles cfg envs st).2 →
      betKey a o ∉ placedBets st.
Proof.
  revert st. induction envs as [|env envs IH]; intros st; simpl.
  - split; [done|]. intros a o res H. by apply elem_of_nil in H.
  - pose proof (runDiscoveryCycle_marks cfg env st) as [Hm1 He1].
    destruct (runDiscoveryCycle cfg env st) as [st1 w1]. simpl in *.
    destruct (IH st1) as [Hm2 He2].
    destruct (runCycles cfg envs st1) as [st2 w2]. simpl in *.
    split; [by etrans|].
    intros a o res [H|H]%elem_of_app; [by eapply He1|].
    apply He2 in H. intros Hin. apply H. by apply Hm1.
Qed.

End CoordinatorFacts.

Section CoordinatorClaims.
Import Calculator Matcher Coordinator.

(** C8. Once the composite key of a pair is in the dedup set, it stays
    there through any sequence of later cycle requests, so every later
    [placedBets.has] for it is true, and none of those cycles hands that
    pair to the execution collaborator, whatever the collaborators
    answer. *)
Theorem marked_pair_is_never_executed_again cfg envs st azId ovId :
  seen (betKey azId ovId) st = true →
  seen (betKey azId ovId) (runCycles cfg envs st).1 = true
  ∧ ∀ res, EExecute azId ovId res ∉ (runCycles cfg envs st).2.
Proof.
  intros Hseen%bool_decide_eq_true_1.
  destruct (runCycles_marks cfg envs st) as [Hm He].
  split.
  - apply bool_decide_eq_true_2. set_solver.
  - intros res Hin. by apply He in Hin.
Qed.

(** A cycle in which a surebet is found and executed, followed by a cycle
    on the same events. *)
Lemma marked_pair_is_never_executed_again_witness :
  let a := mkEvent "az1" "Arsenal vs Chelsea" (Some "Soccer") 0
             (Some [dec 21 10; dec 2 1]) in
  let o := mkEvent "ov1" "Arsenal - Chelsea" (Some "soccer") 0
             (Some [dec 18 10; dec 23 10]) in
  let env := mkEnv (Some [a]) (Some [o]) (Some 0) (Some (dec 1 100))
               (λ _ _, None) (λ _ _, None) (λ _ _, Some true) in
  let cfg := mkConfig false false (dec 100 1) in
  let st := (runDiscoveryCycle cfg env (mkState false ∅ ∅ ∅)).1 in
  seen (betKey "az1" "ov1") (runCycles cfg [env; env] st).1 = true
  ∧ ∀ res, EExecute "az1" "ov1" res ∉ (runCycles cfg [env; env] st).2.
Proof.
  intros a o env cfg st.
  apply (marked_pair_is_never_executed_again cfg [env; env] st "az1" "ov1").
  by vm_compute.
Defined.

(** C9. A request made while a cycle is running returns the coordinator
    state as it was and does no work.  A request made while idle runs the
    [try] block with the flag set; the block never clears the flag itself,
    and whether it completes or throws the state it leaves is returned
    with the flag cleared. *)
Theorem reentrancy_guard_and_cleanup cfg env st :
  (isDiscoveryRunning st = true → runDiscoveryCycle cfg env st = (st, []))
  ∧ (isDiscoveryRunning st = false →
     ∃ completion st' work,
       tryBody cfg env (setRunning true st, []) = (completion, (st', work))
       ∧ isDiscoveryRunning st' = true
       ∧ runDiscoveryCycle cfg env st = (setRunning false st', work)
       ∧ isDiscoveryRunning (runDiscoveryCycle cfg env st).1 = false).
Proof.
  unfold runDiscoveryCycle. split; intros Hrun; rewrite Hrun; [done|].
  pose proof (tryBody_extends cfg env (setRunning true st, [])) as [_ Hflag _].
  destruct (tryBody cfg env (setRunning true st, [])) as [c [st' work]].
  exists c, st', work. by repeat split.
Qed.

Lemma reentrancy_guard_and_cleanup_witness :
  let env := mkEnv None (Some []) None None (λ _ _, None) (λ _ _, None) (λ _ _, None) in
  let cfg := mkConfig true true (dec 100 1) in
  runDiscoveryCycle cfg env (mkState true ∅ ∅ {["az1_ov1"]})
    = (mkState true ∅ ∅ {["az1_ov1"]}, [])
  ∧ ∃ completion st' work,
      tryBody cfg env (setRunning true (mkState false ∅ ∅ ∅), [])
        = (completion, (st', work))
      ∧ isDiscoveryRunning st' = true
      ∧ runDiscoveryCycle cfg env (mkState false ∅ ∅ ∅) = (setRunning false st', work)
      ∧ isDiscoveryRunning (runDiscoveryCycle cfg env (mkState false ∅ ∅ ∅)).1 = false.
Proof.
  intros env cfg. split.
  - by apply (reentrancy_guard_and_cleanup cfg env (mkState true ∅ ∅ {["az1_ov1"]})).
  - by apply (reentrancy_guard_and_cleanup cfg env (mkState false ∅ ∅ ∅)).
Defined.

(** Both completions of the [try] block occur: a rejected fetch throws, an
    empty discovery completes; either way the coordinator ends idle. *)
Example cycle_throwing_and_completing :
  let cfg := mkConfig true true (dec 100 1) in
  let failing := mkEnv None (Some []) None None (λ _ _, None) (λ _ _, None) (λ _ _, None) in
  let quiet := mkEnv (Some []) (Some []) None None (λ _ _, None) (λ _ _, None) (λ _ _, None) in
  let idle := mkState false ∅ ∅ ∅ in
  (tryBody cfg failing (setRunning true idle, [])).1 = Thrown
  ∧ (tryBody cfg quiet (setRunning true idle, [])).1 = Normal
  ∧ isDiscoveryRunning (runDiscoveryCycle cfg failing idle).1 = false
  ∧ isDiscoveryRunning (runDiscoveryCycle cfg quiet idle).1 = false.
Proof. by vm_compute. Qed.

(** The first cycle of the witness of C8 does hand the pair to execution
    and marks it. *)
Example surebet_is_executed_then_marked :
  let a := mkEvent "az1" "Arsenal vs Chelsea" (Some "Soccer") 0
             (Some [dec 21 10; dec 2 1]) in
  let o := mkEvent "ov1" "Arsenal - Chelsea" (Some "soccer") 0
             (Some [dec 18 10; dec 23 10]) in
  let env := mkEnv (Some [a]) (Some [o]) (Some 0) (Some (dec 1 100))
               (λ _ _, None) (λ _ _, None) (λ _ _, Some true) in
  let cfg := mkConfig false false (dec 100 1) in
  let run := runDiscoveryCycle cfg env (mkState false ∅ ∅ ∅) in
  seen (betKey "az1" "ov1") run.1 = true
  ∧ omap (λ e, match e with
               | EExecute az ov res => Some (az, ov, isArbitrage res, matchId res)
               | _ => None
               end) run.2
    = [("az1", "ov1", true, Some "az1")]
  ∧ (runDiscoveryCycle cfg env run.1).2 = [EFetch; EMatch; EGas].
Proof. by vm_compute. Qed.

End CoordinatorClaims.
